(** * Multivariate distributions of pymc: log-densities, means and modes

    A shallow embedding of [pymc/distributions/multivariate.py]
    (MvNormal, Dirichlet, Multinomial, Wishart) and the properties the
    specification states about them.

    Tensors are embedded as MathComp matrices over an ordered field:
    a 1-d tensor of length [k] is a column ['cV_k], a 2-d tensor is
    ['M_d], so that operands of an elementwise operation agree in shape
    by typing.  Scalars are elements of the field and [/] is its
    division.  The elementwise special functions of the tensor backend
    ([log], [gammaln], [factln], [multigammaln], the constant [pi]) are
    parameters of the development, and so is what its [solve] returns
    on a singular matrix. *)

From HB Require Import structures.
From mathcomp Require Import boot order algebra.
From mathcomp Require Import perm.

Set Implicit Arguments.
Unset Strict Implicit.
Unset Printing Implicit Defensive.

Import Order.TTheory GRing.Theory Num.Theory.
Local Open Scope ring_scope.

(** ** Values *)

(** A log-probability is a real number or the sentinel [-inf]. *)
Inductive logprob (R : Type) : Type :=
| Fin (r : R)
| NegInf.

Arguments Fin {R} r.
Arguments NegInf {R}.

(** A derived tensor, or [nan] where it is undefined. *)
Inductive ornan (T : Type) : Type :=
| Val (v : T)
| NaN.

Arguments Val {T} v.
Arguments NaN {T}.

(** A parameter that is broadcast against a vector of length [k]:
    a scalar, or a vector of that length. *)
Inductive param (R : Type) (k : nat) : Type :=
| Scalar (c : R)
| Tensor (v : 'cV[R]_k).

Arguments Scalar {R k} c.
Arguments Tensor {R k} v.

Definition is_finite (R : Type) (l : logprob R) : bool :=
  if l is Fin _ then true else false.

Section Backend.

Variable R : realFieldType.

(** *** Tensor operations ([theano.tensor]) *)

(** [ones([k])] *)
Definition ones (k : nat) : 'cV[R]_k := const_mx 1.

(** [sum(v)] of a 1-d tensor *)
Definition vsum (k : nat) (v : 'cV[R]_k) : R := \sum_i v i 0.

(** [u * v], [u - v], [u / v] on 1-d tensors of one length *)
Definition vmul (k : nat) (u v : 'cV[R]_k) : 'cV[R]_k := map2_mx *%R u v.

(** [c * v], [v - c], [v / c] with a scalar [c] *)
Definition smul (k : nat) (c : R) (v : 'cV[R]_k) : 'cV[R]_k :=
  map_mx (fun y => c * y) v.

Definition vsubs (k : nat) (v : 'cV[R]_k) (c : R) : 'cV[R]_k :=
  map_mx (fun y => y - c) v.

Definition vdivs (k : nat) (v : 'cV[R]_k) (c : R) : 'cV[R]_k :=
  map_mx (fun y => y / c) v.

(** [v > c], [c <= v], [v <= c]: elementwise comparisons give a tensor
    of truth values *)
Definition vgts (k : nat) (v : 'cV[R]_k) (c : R) : 'cV[bool]_k :=
  map_mx (fun y => c < y) v.

Definition sles (k : nat) (c : R) (v : 'cV[R]_k) : 'cV[bool]_k :=
  map_mx (fun y => c <= y) v.

Definition vles (k : nat) (v : 'cV[R]_k) (c : R) : 'cV[bool]_k :=
  map_mx (fun y => y <= c) v.

(** [all(c)] of a tensor of truth values *)
Definition vall (k : nat) (c : 'cV[bool]_k) : bool := [forall i, c i 0].

(** [ones([k]) * a]: a scalar [a] is replicated to length [k] *)
Definition ones_mul (k : nat) (a : param R k) : 'cV[R]_k :=
  match a with
  | Scalar c => map_mx (fun y => y * c) (ones k)
  | Tensor v => vmul (ones k) v
  end.

(** [dot(A, v)] of a matrix and a vector, [dot(u, v)] of two vectors
    (the transpose of a 1-d tensor is the tensor itself) *)
Definition dot_mv (d : nat) (A : 'M[R]_d) (v : 'cV[R]_d) : 'cV[R]_d := A *m v.

Definition dot_vv (d : nat) (u v : 'cV[R]_d) : R := \sum_i u i 0 * v i 0.

(** *** Linear algebra ([theano.sandbox.linalg]) *)

Definition det (d : nat) (A : 'M[R]_d) : R := \det A.

Definition trace (d : nat) (A : 'M[R]_d) : R := \tr A.

(** [solve(A, B)] is the solution [Z] of [A Z = B], that is [A^-1 B],
    for an invertible [A].  The call returns on a singular [A] as well;
    what the backend hands back there solves nothing and is left open,
    as the parameter [solve_singular]. *)
Variable solve_singular : forall d : nat, 'M[R]_d -> 'M[R]_d -> 'M[R]_d.

Definition solve (d : nat) (A B : 'M[R]_d) : 'M[R]_d :=
  if A \in unitmx then invmx A *m B else solve_singular A B.

(** *** The support guard ([dist_math]) *)

(** Modelled from the spec: [bound] of [dist_math], which is not part of
    the sources at hand.  The raw log-density is computed
    unconditionally and then replaced with negative infinity whenever
    any guard predicate is false; a guard that is a tensor of truth
    values holds when all its entries do. *)
Definition alltrue (conditions : seq bool) : bool := all id conditions.

Definition bound (logp : R) (conditions : seq bool) : logprob R :=
  if alltrue conditions then Fin logp else NegInf.

(** The predicates on matrices the specification uses. *)
Definition symmetric (d : nat) (A : 'M[R]_d) : Prop := A^T = A.

Definition posdef (d : nat) (A : 'M[R]_d) : Prop :=
  forall x : 'cV[R]_d, x != 0 -> 0 < (x^T *m A *m x) 0 0.

Definition spd (d : nat) (A : 'M[R]_d) : Prop := symmetric A /\ posdef A.

(** [P] is a permutation matrix. *)
Definition is_perm_mx (d : nat) (P : 'M[R]_d) : Prop :=
  exists s : 'S_d, P = perm_mx s.

(** The entries of a 1-d tensor, or of a parameter, in the order given
    by a permutation of the indices. *)
Definition vperm (k : nat) (s : 'S_k) (v : 'cV[R]_k) : 'cV[R]_k :=
  row_perm s v.

Definition pperm (k : nat) (s : 'S_k) (a : param R k) : param R k :=
  match a with
  | Scalar c => Scalar c
  | Tensor v => Tensor (vperm s v)
  end.

End Backend.

Section Distributions.

Variable R : realFieldType.

(** The special functions of the backend. *)
Variables (log gammaln factln : R -> R) (pi : R).
Variable multigammaln : nat -> R -> R.
Variable solve_singular : forall d : nat, 'M[R]_d -> 'M[R]_d -> 'M[R]_d.

(** Modelled from the spec: [logpow] of [dist_math], which is not part
    of the sources at hand; [logpow(x, m)] is the log of [x] to the
    power [m], that is [m * log(x)]. *)
Definition logpow (k : nat) (x m : 'cV[R]_k) : 'cV[R]_k :=
  map2_mx (fun xi mi => mi * log xi) x m.

(** ** MvNormal(mu, tau) *)

Definition MvNormal_logp (d : nat) (mu : 'cV[R]_d) (tau : 'M[R]_d)
  (value : 'cV[R]_d) : R :=
  let delta := value - mu in
  let k := d%:R in
  1 / 2%:R * (- k * log (2%:R * pi) + log (det tau)
              - dot_vv delta (dot_mv tau delta)).

Definition MvNormal_mean (d : nat) (mu : 'cV[R]_d) (tau : 'M[R]_d) := mu.

Definition MvNormal_median (d : nat) (mu : 'cV[R]_d) (tau : 'M[R]_d) := mu.

Definition MvNormal_mode (d : nat) (mu : 'cV[R]_d) (tau : 'M[R]_d) := mu.

(** ** Dirichlet(k, a) *)

Definition Dirichlet_a (k : nat) (a : param R k) : 'cV[R]_k := ones_mul a.

Definition Dirichlet_logp (k : nat) (a0 : param R k) (value : 'cV[R]_k)
  : logprob R :=
  let a := Dirichlet_a a0 in
  bound
    (vsum (logpow value (vsubs a 1) - map_mx gammaln a) + gammaln (vsum a))
    [:: (1 < k)%N; vall (vgts a 0)].

Definition Dirichlet_mean (k : nat) (a0 : param R k) : 'cV[R]_k :=
  let a := Dirichlet_a a0 in
  vdivs a (vsum a).

Definition Dirichlet_mode (k : nat) (a0 : param R k) : ornan 'cV[R]_k :=
  let a := Dirichlet_a a0 in
  if vall (vgts a 1) then Val (vdivs (vsubs a 1) (vsum (vsubs a 1)))
  else NaN.

(** ** Multinomial(n, p) *)

Definition Multinomial_logp (k : nat) (n : R) (p : 'cV[R]_k)
  (x : 'cV[R]_k) : logprob R :=
  bound
    (factln n + vsum (vmul x (map_mx log p) - map_mx factln x))
    [:: 0 < n; vall (sles 0 x); vall (vles x n)].

Definition Multinomial_mean (k : nat) (n : R) (p : 'cV[R]_k) : 'cV[R]_k :=
  smul n p.

(** ** Wishart(n, p, V) *)

Definition Wishart_logp (d : nat) (n : R) (p : nat) (V : 'M[R]_d)
  (X : 'M[R]_d) : logprob R :=
  let IVI := det V in
  bound
    (((n - p%:R - 1) * log IVI - trace (solve solve_singular V X)
      - n * p%:R * log 2%:R - n * log IVI
      - 2%:R * multigammaln p (n / 2%:R)) / 2%:R)
    [:: p%:R - 1 < n].

Definition Wishart_mean (d : nat) (n : R) (p : nat) (V : 'M[R]_d)
  : 'M[R]_d := n *: V.

Definition Wishart_mode (d : nat) (n : R) (p : nat) (V : 'M[R]_d)
  : ornan 'M[R]_d :=
  if p%:R + 1 <= n then Val ((n - p%:R - 1) *: V) else NaN.

End Distributions.

(** ** A rational instance

    The properties below hold over any ordered field and for any choice
    of the special functions.  To evaluate them on concrete inputs we
    take the rationals, with stand-ins for the special functions that
    agree with the real ones where the examples need it
    ([qlog 1 = 0], [qgammaln 1 = qgammaln 2 = 0]); [qfactln] and
    [qmultigammaln] are built from them by the usual recurrences, and
    [qsolve_singular] hands back the zero matrix. *)

Definition qlog (x : rat) : rat := x - 1.

Definition qgammaln (x : rat) : rat := (x - 1) * (x - 2%:R).

Definition qfactln (x : rat) : rat := qgammaln (x + 1).

Definition qpi : rat := 22%:R / 7%:R.

Definition qmultigammaln (p : nat) (a : rat) : rat :=
  p%:R * (p%:R - 1) * qlog qpi / 4%:R
  + \sum_(1 <= i < p.+1) qgammaln (a + (1 - i%:R) / 2%:R).

Definition qsolve_singular (d : nat) (A B : 'M[rat]_d) : 'M[rat]_d := 0.

(** * Properties *)

Section BackendFacts.

Variable R : realFieldType.

Lemma ones_mulE (k : nat) (a : param R k) (i : 'I_k) :
  ones_mul a i 0 = match a with Scalar c => c | Tensor v => v i 0 end.
Proof. by case: a => [c|v]; rewrite /ones_mul /vmul /ones !mxE mul1r. Qed.

Lemma vallP (k : nat) (c : 'cV[bool]_k) :
  reflect (forall i, c i 0) (vall c).
Proof. exact: forallP. Qed.

Lemma vall_vgts (k : nat) (v : 'cV[R]_k) (c : R) :
  reflect (forall i, c < v i 0) (vall (vgts v c)).
Proof.
apply: (iffP (vallP _)) => h i; first by move: (h i); rewrite mxE.
by rewrite mxE.
Qed.

Lemma vall_sles (k : nat) (v : 'cV[R]_k) (c : R) :
  reflect (forall i, c <= v i 0) (vall (sles c v)).
Proof.
apply: (iffP (vallP _)) => h i; first by move: (h i); rewrite mxE.
by rewrite mxE.
Qed.

Lemma vall_vles (k : nat) (v : 'cV[R]_k) (c : R) :
  reflect (forall i, v i 0 <= c) (vall (vles v c)).
Proof.
apply: (iffP (vallP _)) => h i; first by move: (h i); rewrite mxE.
by rewrite mxE.
Qed.

(** A guard tensor fails as soon as one entry does. *)
Lemma vallPn (k : nat) (c : 'cV[bool]_k) :
  reflect (exists i, ~~ c i 0) (~~ vall c).
Proof. exact: forallPn. Qed.

Lemma bound_true (logp : R) (conditions : seq bool) :
  alltrue conditions -> bound logp conditions = Fin logp.
Proof. by rewrite /bound => ->. Qed.

Lemma bound_false (logp : R) (conditions : seq bool) :
  ~~ alltrue conditions -> bound logp conditions = NegInf.
Proof. by rewrite /bound => /negbTE->. Qed.

(** The inner product of the code is the matrix product of a row by a
    column. *)
Lemma dot_vvE (d : nat) (u v : 'cV[R]_d) : dot_vv u v = (u^T *m v) 0 0.
Proof. by rewrite /dot_vv mxE; apply: eq_bigr => i _; rewrite mxE. Qed.

Lemma quad_formE (d : nat) (A : 'M[R]_d) (x : 'cV[R]_d) :
  dot_vv x (dot_mv A x) = (x^T *m A *m x) 0 0.
Proof. by rewrite dot_vvE /dot_mv mulmxA. Qed.

(** A positive-definite matrix has a trivial kernel, so that [solve]
    with it is the solution. *)
Lemma posdef_unitmx (d : nat) (A : 'M[R]_d) : posdef A -> A \in unitmx.
Proof.
move=> pdA; rewrite unitmxE unitfE; apply/negP => /det0P[v vn0 vA0].
have /pdA : v^T != 0 by rewrite -trmx0 (inj_eq trmx_inj).
by rewrite trmxK vA0 mul0mx mxE ltxx.
Qed.

Variable solve_singular : forall d : nat, 'M[R]_d -> 'M[R]_d -> 'M[R]_d.

Lemma solve_unit (d : nat) (A B : 'M[R]_d) :
  A \in unitmx -> solve solve_singular A B = invmx A *m B.
Proof. by rewrite /solve => ->. Qed.

Lemma solve_sound (d : nat) (A B : 'M[R]_d) :
  A \in unitmx -> A *m solve solve_singular A B = B.
Proof. by move=> uA; rewrite solve_unit // mulmxA mulmxV // mul1mx. Qed.

End BackendFacts.

(** ** Symmetric positive-definite matrices

    The determinant of a symmetric positive-definite matrix is positive,
    by induction on the size through the complement of the upper-left
    entry: with [U] the unit upper-triangular matrix that clears the
    first row, [U^T A U] is block diagonal. *)

Section Schur.

Variable R : realFieldType.

Lemma symmetric_congr (d : nat) (M A : 'M[R]_d) :
  symmetric A -> symmetric (M^T *m A *m M).
Proof. by rewrite /symmetric => sA; rewrite !trmx_mul trmxK sA mulmxA. Qed.

Lemma posdef_congr (d : nat) (M A : 'M[R]_d) :
  M \in unitmx -> posdef A -> posdef (M^T *m A *m M).
Proof.
move=> uM pdA x xn0.
have /pdA : M *m x != 0.
  apply: contra xn0 => /eqP Mx0.
  by rewrite -[x]mul1mx -(mulVmx uM) -mulmxA Mx0 mulmx0.
by rewrite trmx_mul !mulmxA.
Qed.

Lemma spd_block_diag (d : nat) (a : 'M[R]_1) (S : 'M[R]_d) :
  spd (block_mx a 0 0 S) -> 0 < a 0 0 /\ spd S.
Proof.
case=> sB pdB; split.
  have /pdB : (col_mx 1%:M 0 : 'cV[R]_(1 + d)) != 0.
    apply/eqP => /(congr1 usubmx); rewrite col_mxKu.
    move/matrixP/(_ 0 0); rewrite !mxE /=.
    by move/eqP; rewrite oner_eq0.
  rewrite tr_col_mx trmx0 trmx1 mul_row_block mul_row_col.
  by rewrite !mul1mx !mul0mx !mulmx0 !addr0 mulmx1.
split.
  move: sB; rewrite /symmetric tr_block_mx => /eq_block_mx.
  by case=> _ _ _ ->.
move=> y yn0.
have /pdB : (col_mx 0 y : 'cV[R]_(1 + d)) != 0.
  apply: contra yn0 => /eqP h.
  by have := congr1 dsubmx h; rewrite col_mxKd => ->; rewrite linear0.
rewrite tr_col_mx trmx0 mul_row_block mul_row_col.
by rewrite !mul0mx !mulmx0 !add0r.
Qed.

Lemma spd_det_step (d : nat) (A : 'M[R]_(1 + d)) :
  (forall S : 'M[R]_d, spd S -> 0 < \det S) -> spd A -> 0 < \det A.
Proof.
move=> IH spdA; case: (spdA) => sA pdA.
pose a := ulsubmx A; pose b := ursubmx A.
pose c := dlsubmx A; pose D := drsubmx A.
have AE : A = block_mx a b c D by rewrite submxK.
have cE : c = b^T.
  move: sA; rewrite /symmetric AE tr_block_mx => /eq_block_mx.
  by case=> _ _ -> _.
pose al := a 0 0.
have aE : a = al%:M by rewrite /al -mx11_scalar.
have al_gt0 : 0 < al.
  have /pdA : (col_mx 1%:M 0 : 'cV[R]_(1 + d)) != 0.
    apply/eqP => /(congr1 usubmx); rewrite col_mxKu.
    move/matrixP/(_ 0 0); rewrite !mxE /=.
    by move/eqP; rewrite oner_eq0.
  rewrite AE tr_col_mx trmx0 trmx1 mul_row_block mul_row_col.
  by rewrite !mul1mx !mul0mx !mulmx0 !addr0 mulmx1.
have al_neq0 : al != 0 by rewrite gt_eqF.
pose U : 'M[R]_(1 + d) := block_mx 1%:M (- (al^-1 *: b)) 0 1%:M.
pose S := D - al^-1 *: (c *m b).
have detU : \det U = 1 by rewrite det_ublock !det1 mulr1.
have uU : U \in unitmx by rewrite unitmxE detU unitr1.
have UAU : U^T *m A *m U = block_mx a 0 0 S.
  have ab : a *m b = al *: b by rewrite aE mul_scalar_mx.
  have ba : b^T *m a = al *: b^T by rewrite aE mul_mx_scalar.
  have dl0 : (- (al^-1 *: b))^T *m a + (1%:M)^T *m c = 0.
    rewrite trmx1 mul1mx linearN linearZ /= mulNmx -scalemxAl ba.
    by rewrite scalerA mulVf // scale1r cE addNr.
  rewrite AE /U tr_block_mx !mulmx_block trmx0.
  rewrite !mul0mx !mulmx0 !mulmx1 ?addr0 ?add0r dl0 mul0mx add0r.
  congr (block_mx _ _ _ _); rewrite trmx1 ?mul1mx //.
    by rewrite mulmxN -scalemxAr ab scalerA mulVf // scale1r addNr.
  by rewrite linearN linearZ /= mulNmx -scalemxAl addrC /S cE.
have : spd (U^T *m A *m U).
  by split; [apply: symmetric_congr | apply: posdef_congr].
rewrite UAU => /spd_block_diag[_ /IH detS].
have : \det (U^T *m A *m U) = al * \det S.
  by rewrite UAU det_ublock det_mx11.
rewrite !det_mulmx det_tr detU mulr1 mul1r => ->.
exact: mulr_gt0.
Qed.

Lemma spd_det_gt0 (d : nat) (A : 'M[R]_d) : spd A -> 0 < \det A.
Proof.
elim: d A => [|d IH] A; first by rewrite det_mx00 ltr01.
exact: (@spd_det_step d A).
Qed.

End Schur.

(** ** The raw expressions and the guards, entry by entry *)

Section Contracts.

Variable R : realFieldType.
Variables (log gammaln factln : R -> R) (pi : R).
Variable multigammaln : nat -> R -> R.
Variable solve_singular : forall d : nat, 'M[R]_d -> 'M[R]_d -> 'M[R]_d.

Lemma Dirichlet_aE (k : nat) (a0 : param R k) (i : 'I_k) :
  Dirichlet_a a0 i 0 = match a0 with Scalar c => c | Tensor v => v i 0 end.
Proof. exact: ones_mulE. Qed.

Lemma Dirichlet_raw (k : nat) (a x : 'cV[R]_k) :
  vsum (logpow log x (vsubs a 1) - map_mx gammaln a) =
  \sum_i ((a i 0 - 1) * log (x i 0) - gammaln (a i 0)).
Proof. by apply: eq_bigr => i _; rewrite !mxE. Qed.

Lemma Dirichlet_logp_inside (k : nat) (a0 : param R k) (x : 'cV[R]_k) :
  (1 < k)%N -> (forall i, 0 < Dirichlet_a a0 i 0) ->
  Dirichlet_logp log gammaln a0 x =
  Fin (\sum_i ((Dirichlet_a a0 i 0 - 1) * log (x i 0)
               - gammaln (Dirichlet_a a0 i 0))
       + gammaln (\sum_i Dirichlet_a a0 i 0)).
Proof.
move=> k1 /vall_vgts apos; rewrite /Dirichlet_logp bound_true ?Dirichlet_raw //.
by rewrite /alltrue /= k1 apos.
Qed.

Lemma Dirichlet_logp_outside (k : nat) (a0 : param R k) (x : 'cV[R]_k) :
  (k <= 1)%N \/ (exists i, Dirichlet_a a0 i 0 <= 0) ->
  Dirichlet_logp log gammaln a0 x = NegInf.
Proof.
move=> out; rewrite /Dirichlet_logp bound_false // /alltrue /= andbT.
case: out => [k1|[i ai]]; first by rewrite ltnNge k1.
rewrite negb_and; apply/orP; right; apply/vallPn; exists i.
by rewrite mxE -leNgt.
Qed.

Lemma Multinomial_raw (k : nat) (p x : 'cV[R]_k) :
  vsum (vmul x (map_mx log p) - map_mx factln x) =
  \sum_i (x i 0 * log (p i 0) - factln (x i 0)).
Proof. by apply: eq_bigr => i _; rewrite !mxE. Qed.

Lemma Multinomial_logp_inside (k : nat) (n : R) (p x : 'cV[R]_k) :
  0 < n -> (forall i, 0 <= x i 0 <= n) ->
  Multinomial_logp log factln n p x =
  Fin (factln n + \sum_i (x i 0 * log (p i 0) - factln (x i 0))).
Proof.
move=> n0 xb; rewrite /Multinomial_logp bound_true ?Multinomial_raw //.
rewrite /alltrue /= n0 andbT /=; apply/andP; split.
  by apply/vall_sles => i; case/andP: (xb i).
by apply/vall_vles => i; case/andP: (xb i).
Qed.

Lemma Multinomial_logp_outside (k : nat) (n : R) (p x : 'cV[R]_k) :
  n <= 0 \/ (exists i, x i 0 < 0) \/ (exists i, n < x i 0) ->
  Multinomial_logp log factln n p x = NegInf.
Proof.
move=> out; rewrite /Multinomial_logp bound_false // /alltrue /= andbT.
case: out => [n0|[[i xi]|[i xi]]]; first by rewrite ltNge n0.
  rewrite !negb_and; apply/orP; right; apply/orP; left.
  by apply/vallPn; exists i; rewrite mxE -ltNge.
rewrite !negb_and; apply/orP; right; apply/orP; right.
by apply/vallPn; exists i; rewrite mxE -ltNge.
Qed.

Lemma Wishart_logp_unit (d : nat) (n : R) (p : nat) (V X : 'M[R]_d) :
  V \in unitmx ->
  Wishart_logp log multigammaln solve_singular n p V X =
  if p%:R - 1 < n
  then Fin (((n - p%:R - 1) * log (\det V) - \tr (invmx V *m X)
             - n * p%:R * log 2%:R - n * log (\det V)
             - 2%:R * multigammaln p (n / 2%:R)) / 2%:R)
  else NegInf.
Proof.
move=> uV; rewrite /Wishart_logp solve_unit // /bound /alltrue /= andbT.
by rewrite /det /trace.
Qed.


End Contracts.

(** ** Conjugation by an orthogonal matrix *)

Section Conjugation.

Variable R : realFieldType.

Lemma perm_mx_orth (d : nat) (s : 'S_d) :
  perm_mx s *m (perm_mx s)^T = 1%:M :> 'M[R]_d.
Proof. by rewrite tr_perm_mx -perm_mxM mulgV perm_mx1. Qed.

Variables (d : nat) (P : 'M[R]_d).
Hypothesis PPt : P *m P^T = 1%:M.

Lemma orth_tr_mul : P^T *m P = 1%:M.
Proof. exact: mulmx1C. Qed.

Lemma orth_unitmx : P \in unitmx.
Proof. by case: (mulmx1_unit PPt). Qed.

Lemma conj_unitmx (V : 'M[R]_d) :
  (P *m V *m P^T \in unitmx) = (V \in unitmx).
Proof. by rewrite !unitmx_mul unitmx_tr orth_unitmx andbT. Qed.

Lemma conj_det (V : 'M[R]_d) : \det (P *m V *m P^T) = \det V.
Proof.
rewrite !det_mulmx mulrAC -det_mulmx PPt det1 mul1r //.
Qed.

Lemma conj_invmx (V : 'M[R]_d) :
  V \in unitmx -> invmx (P *m V *m P^T) = P *m invmx V *m P^T.
Proof.
move=> uV; have uW : P *m V *m P^T \in unitmx by rewrite conj_unitmx.
have WY : (P *m V *m P^T) *m (P *m invmx V *m P^T) = 1%:M.
  rewrite !mulmxA -(mulmxA (P *m V)) orth_tr_mul mulmx1.
  by rewrite -(mulmxA P) mulmxV // mulmx1.
by rewrite -[RHS](mulKmx uW) WY mulmx1.
Qed.

Lemma conj_solve_trace (V X : 'M[R]_d) :
  V \in unitmx ->
  \tr (invmx (P *m V *m P^T) *m (P *m X *m P^T)) = \tr (invmx V *m X).
Proof.
move=> uV; rewrite conj_invmx // !mulmxA.
rewrite -(mulmxA (P *m invmx V)) orth_tr_mul mulmx1.
by rewrite mxtrace_mulC !mulmxA orth_tr_mul mul1mx.
Qed.

End Conjugation.

(** ** Sums of the derived vectors *)

Section Sums.

Variable R : realFieldType.

Lemma vsum_smul (k : nat) (c : R) (v : 'cV[R]_k) :
  vsum (smul c v) = c * vsum v.
Proof. by rewrite /vsum big_distrr; apply: eq_bigr => i _; rewrite mxE. Qed.

Lemma vsum_vdivs (k : nat) (v : 'cV[R]_k) (c : R) :
  vsum (vdivs v c) = vsum v / c.
Proof. by rewrite /vsum big_distrl; apply: eq_bigr => i _; rewrite mxE. Qed.

(** A non-empty sum of positive numbers is positive. *)
Lemma vsum_gt0 (k : nat) (v : 'cV[R]_k) :
  (0 < k)%N -> (forall i, 0 < v i 0) -> 0 < vsum v.
Proof.
case: k v => // k v _ vpos; rewrite /vsum (bigD1 ord0) //=.
by apply: ltr_pwDl => //; apply: sumr_ge0 => i _; apply: ltW.
Qed.

Lemma vsum_empty (v : 'cV[R]_0) : vsum v = 0.
Proof. by rewrite /vsum big_ord0. Qed.

(** The identity matrix is symmetric positive definite. *)
Lemma spd_1 (d : nat) : spd (1%:M : 'M[R]_d).
Proof.
split; first exact: trmx1.
move=> x xn0; rewrite mulmx1 -dot_vvE /dot_vv.
have [i xi] : exists i, x i 0 != 0.
  apply/existsP; apply: contraNT xn0; rewrite negb_exists => /forallP x0.
  apply/eqP/matrixP => i j; rewrite mxE ord1.
  by apply/eqP; move: (x0 i); rewrite negbK.
rewrite (bigD1 i) //=; apply: ltr_pwDl.
  by rewrite -expr2 exprn_even_gt0.
by apply: sumr_ge0 => j _; rewrite -expr2 sqr_ge0.
Qed.

(** A symmetric 2 x 2 matrix with a positive upper-left entry and a
    positive determinant is positive definite. *)
Lemma spd_2x2 (A : 'M[R]_2) :
  symmetric A -> 0 < A 0 0 -> 0 < A 0 0 * A 1 1 - A 0 1 * A 0 1 -> spd A.
Proof.
move=> sA a0 d0; split=> // x xn0.
have A10 : A 1 0 = A 0 1 by rewrite -[in LHS]sA mxE.
have l1 : lift ord0 ord0 = 1 :> 'I_2 by apply: val_inj.
rewrite -quad_formE /dot_vv /dot_mv !big_ord_recl big_ord0 !mxE.
rewrite !big_ord_recl !big_ord0 !l1 A10 !addr0.
set a := A 0 0; set b := A 0 1; set c := A 1 1; set u := x 0 0; set v := x 1 0.
have h : a * (u * (a * u + b * v) + v * (b * u + c * v)) =
         (a * u + b * v) ^+ 2 + (a * c - b * b) * v ^+ 2 by ring.
rewrite -(pmulr_rgt0 _ a0) h.
have [v0|vn0] := eqVneq v 0.
  have un0 : u != 0.
    apply: contra xn0 => /eqP u0; apply/eqP/matrixP => i j.
    rewrite ord1 mxE; case: i => [[|[|i]] lti] //.
      by rewrite -[RHS]u0; congr (x _ _); apply: val_inj.
    by rewrite -[RHS]v0; congr (x _ _); apply: val_inj.
  rewrite v0 expr0n /= mulr0 addr0 mulr0 addr0 exprMn.
  by apply: mulr_gt0; rewrite exprn_even_gt0 //= gt_eqF.
apply: ltr_wpDl; first exact: sqr_ge0.
by apply: mulr_gt0 => //; rewrite exprn_even_gt0.
Qed.

Lemma conj_spd (d : nat) (P A : 'M[R]_d) :
  P *m P^T = 1%:M -> spd A -> spd (P *m A *m P^T).
Proof.
move=> PPt [sA pdA]; rewrite -{1}[P]trmxK; split.
  exact: symmetric_congr.
by apply: posdef_congr => //; rewrite unitmx_tr (orth_unitmx PPt).
Qed.

End Sums.

(** Wishart [logp] with an invertible scale does not change when scale
    and value are conjugated by an orthogonal matrix. *)
Lemma Wishart_logp_conj (R : realFieldType) (log : R -> R)
  (multigammaln : nat -> R -> R)
  (solve_singular : forall d : nat, 'M[R]_d -> 'M[R]_d -> 'M[R]_d)
  (d p : nat) (n : R) (P V X : 'M[R]_d) :
  P *m P^T = 1%:M -> V \in unitmx ->
  Wishart_logp log multigammaln solve_singular n p
    (P *m V *m P^T) (P *m X *m P^T) =
  Wishart_logp log multigammaln solve_singular n p V X.
Proof.
move=> PPt uV; rewrite !Wishart_logp_unit ?conj_unitmx //.
by rewrite conj_det // conj_solve_trace.
Qed.

(** * The claims of the specification *)

Section Claims.

Variable R : realFieldType.
Variables (log gammaln factln : R -> R) (pi : R).
Variable multigammaln : nat -> R -> R.
Variable solve_singular : forall d : nat, 'M[R]_d -> 'M[R]_d -> 'M[R]_d.

(** C1: for a [p x p] symmetric positive-definite scale [V], Wishart
    [logp(X)] is
    [((n-p-1)*log|V| - trace(solve(V,X)) - n*p*log 2 - n*log|V|
      - 2*multigammaln(p, n/2)) / 2],
    with the two determinant terms in that literal form, where
    [solve(V,X)] is [V^-1 X] and [|V|] is positive; the result is
    replaced by negative infinity unless [n > p-1]. *)
Theorem Wishart_logp_formula (p : nat) (n : R) (V X : 'M[R]_p) :
  spd V ->
  0 < \det V /\
  Wishart_logp log multigammaln solve_singular n p V X =
  if p%:R - 1 < n
  then Fin (((n - p%:R - 1) * log (\det V) - \tr (invmx V *m X)
             - n * p%:R * log 2%:R - n * log (\det V)
             - 2%:R * multigammaln p (n / 2%:R)) / 2%:R)
  else NegInf.
Proof.
move=> spdV; split; first exact: spd_det_gt0.
by apply: Wishart_logp_unit; apply: posdef_unitmx; case: spdV.
Qed.

(** The two determinant terms of the Wishart log-density add up to
    [-(p+1)*log|V|]. *)
Lemma Wishart_det_terms (p : nat) (n l t g : R) :
  ((n - p%:R - 1) * l - t - n * p%:R * g - n * l) =
  - (p%:R + 1) * l - t - n * p%:R * g.
Proof. ring. Qed.

(** C2: with [a] the concentration after a scalar has been replicated
    to length [k], Dirichlet [logp(x)] is
    [sum_i ((a_i-1)*log(x_i) - lgamma(a_i)) + lgamma(sum(a))] whenever
    [k > 1] and every [a_i > 0], and negative infinity whenever
    [k <= 1] or some [a_i <= 0]. *)
Theorem Dirichlet_logp_contract (k : nat) (a0 : param R k) (x : 'cV[R]_k) :
  let a := Dirichlet_a a0 in
  (forall i, a i 0 = match a0 with Scalar c => c | Tensor v => v i 0 end) /\
  ((1 < k)%N -> (forall i, 0 < a i 0) ->
     Dirichlet_logp log gammaln a0 x =
     Fin (\sum_i ((a i 0 - 1) * log (x i 0) - gammaln (a i 0))
          + gammaln (\sum_i a i 0))) /\
  ((k <= 1)%N \/ (exists i, a i 0 <= 0) ->
     Dirichlet_logp log gammaln a0 x = NegInf).
Proof.
split; first exact: Dirichlet_aE.
split; first exact: Dirichlet_logp_inside.
exact: Dirichlet_logp_outside.
Qed.

(** C3: Multinomial [logp(x)] is
    [factln(n) + sum_i (x_i*log(p_i) - factln(x_i))] whenever [n > 0]
    and [0 <= x_i <= n] for every [i], and negative infinity whenever
    [n <= 0] or some [x_i < 0] or some [x_i > n]. *)
Theorem Multinomial_logp_contract (k : nat) (n : R) (p x : 'cV[R]_k) :
  (0 < n -> (forall i, 0 <= x i 0 <= n) ->
     Multinomial_logp log factln n p x =
     Fin (factln n + \sum_i (x i 0 * log (p i 0) - factln (x i 0)))) /\
  (n <= 0 \/ (exists i, x i 0 < 0) \/ (exists i, n < x i 0) ->
     Multinomial_logp log factln n p x = NegInf).
Proof.
split; first exact: Multinomial_logp_inside.
exact: Multinomial_logp_outside.
Qed.

(** C4: for a [k x k] symmetric positive-definite precision [T],
    MvNormal [logp(x)] is
    [1/2 * (-k*log(2 pi) + log(det T) - (x-mu)^T T (x-mu))], a real
    number, the determinant under the logarithm being positive. *)
Theorem MvNormal_logp_formula (k : nat) (mu : 'cV[R]_k) (T : 'M[R]_k)
  (x : 'cV[R]_k) :
  spd T ->
  0 < \det T /\
  MvNormal_logp log pi mu T x =
  1 / 2%:R * (- k%:R * log (2%:R * pi) + log (\det T)
              - ((x - mu)^T *m T *m (x - mu)) 0 0).
Proof.
move=> spdT; split; first exact: spd_det_gt0.
by rewrite /MvNormal_logp quad_formE.
Qed.


(** C6: Wishart [logp] is invariant under a simultaneous permutation of
    the rows and columns of the scale [V] and of the value [X]: with a
    permutation matrix [P], [logp] with scale [P V P^T] at [P X P^T] is
    [logp] with scale [V] at [X]. *)
Theorem Wishart_logp_perm_invariant (p : nat) (n : R) (P V X : 'M[R]_p) :
  is_perm_mx P -> spd V -> spd X ->
  [/\ spd (P *m V *m P^T), spd (P *m X *m P^T) &
      Wishart_logp log multigammaln solve_singular n p
        (P *m V *m P^T) (P *m X *m P^T) =
      Wishart_logp log multigammaln solve_singular n p V X].
Proof.
case=> s -> spdV spdX; have PPt := perm_mx_orth R s.
split; [exact: conj_spd | exact: conj_spd |].
by apply: Wishart_logp_conj => //; apply: posdef_unitmx; case: spdV.
Qed.

(** C7: for [k = 2] and concentration [a = [1, 1]], Dirichlet [logp] is
    [0] at every value [x] with coordinates in (0, 1) that sum to 1,
    the log-gamma function vanishing at 1 and 2. *)
Theorem Dirichlet_uniform_logp (x : 'cV[R]_2) :
  gammaln 1 = 0 -> gammaln 2%:R = 0 ->
  (forall i, 0 < x i 0 < 1) -> \sum_i x i 0 = 1 ->
  Dirichlet_logp log gammaln (Tensor (const_mx 1)) x = Fin 0.
Proof.
move=> g1 g2 _ _; rewrite Dirichlet_logp_inside //.
  by move=> i; rewrite Dirichlet_aE mxE ltr01.
congr (Fin _); rewrite !big_ord_recl !big_ord0 !Dirichlet_aE !mxE.
have -> : 1 + (1 + 0) = 2%:R :> R by rewrite addr0.
by rewrite subrr !mul0r g1 g2 !subr0 !addr0.
Qed.

(** C8: the Multinomial mean is [n * p] entry by entry, and its entries
    sum to [n] when [sum(p) = 1]. *)
Theorem Multinomial_mean_sum (k : nat) (n : R) (p : 'cV[R]_k) :
  vsum p = 1 ->
  (forall i, Multinomial_mean n p i 0 = n * p i 0) /\
  vsum (Multinomial_mean n p) = n.
Proof.
move=> p1; split; first by move=> i; rewrite /Multinomial_mean mxE.
by rewrite /Multinomial_mean vsum_smul p1 mulr1.
Qed.

(** C9, amended: for a non-empty concentration vector [a] with every
    [a_i > 0], the entries [a_i / sum(a)] of the Dirichlet mean are
    positive and sum to 1; when moreover every [a_i > 1], the mode is
    defined, its entries are [(a_i - 1) / sum(a - 1)] and they sum to
    1. *)
Theorem Dirichlet_mean_mode_simplex (k : nat) (a0 : param R k) :
  let a := Dirichlet_a a0 in
  (0 < k)%N -> (forall i, 0 < a i 0) ->
  [/\ forall i, Dirichlet_mean a0 i 0 = a i 0 / \sum_j a j 0,
      forall i, 0 < Dirichlet_mean a0 i 0,
      vsum (Dirichlet_mean a0) = 1 &
      (forall i, 1 < a i 0) ->
      exists m : 'cV[R]_k,
        [/\ Dirichlet_mode a0 = Val m,
            forall i, m i 0 = (a i 0 - 1) / \sum_j (a j 0 - 1) &
            vsum m = 1]].
Proof.
move=> a k0 apos; have s0 : 0 < vsum a by apply: vsum_gt0.
split.
- by move=> i; rewrite /Dirichlet_mean mxE.
- by move=> i; rewrite /Dirichlet_mean mxE divr_gt0.
- by rewrite /Dirichlet_mean vsum_vdivs divff // gt_eqF.
move=> a1; exists (vdivs (vsubs a 1) (vsum (vsubs a 1))).
have t0 : 0 < vsum (vsubs a 1).
  by apply: vsum_gt0 => // i; rewrite mxE subr_gt0.
split.
- by rewrite /Dirichlet_mode -/a; move/vall_vgts: a1 => ->.
- move=> i; rewrite !mxE; congr (_ / _).
  by apply: eq_bigr => j _; rewrite mxE.
- by rewrite vsum_vdivs divff // gt_eqF.
Qed.

(** C10: the guard of Multinomial [logp] tests only [n > 0] and
    [0 <= x_i <= n]: under these, with every [p_i > 0], the result is
    the finite raw value
    [factln(n) + sum_i (x_i*log(p_i) - factln(x_i))], with no condition
    on [sum(x)] or [sum(p)]; and there are such inputs with
    [sum(x) <> n] and [sum(p) <> 1]. *)
Theorem Multinomial_logp_ignores_sums :
  (forall (k : nat) (n : R) (p x : 'cV[R]_k),
     0 < n -> (forall i, 0 <= x i 0 <= n) -> (forall i, 0 < p i 0) ->
     Multinomial_logp log factln n p x =
     Fin (factln n + \sum_i (x i 0 * log (p i 0) - factln (x i 0)))) /\
  (exists (k : nat) (n : R) (p x : 'cV[R]_k),
     [/\ 0 < n, forall i, 0 <= x i 0 <= n & forall i, 0 < p i 0] /\
     [/\ vsum x != n, vsum p != 1 &
         is_finite (Multinomial_logp log factln n p x)]).
Proof.
split; first by move=> k n p x n0 xb _; apply: Multinomial_logp_inside.
exists 1%N, 2%:R, (const_mx 2%:R^-1), (const_mx 1).
have n0 : 0 < 2%:R :> R by rewrite ltr0n.
have xb (i : 'I_1) : 0 <= (const_mx 1 : 'cV[R]_1) i 0 <= 2%:R.
  by rewrite mxE ler01 (ler_nat _ 1 2).
split; split=> //.
- by move=> i; rewrite mxE invr_gt0.
- by rewrite /vsum big_ord1 mxE (eqr_nat _ 1 2).
- rewrite /vsum big_ord1 mxE; apply/eqP => /(congr1 (fun y => 2%:R * y)).
  by rewrite mulfV ?mulr1 ?pnatr_eq0 // => /eqP; rewrite (eqr_nat _ 1 2).
- by rewrite Multinomial_logp_inside.
Qed.

End Claims.

(** * The claims on concrete inputs *)

(** [Wishart(n=3, p=2, V=I)] at [X = I]: the scale is symmetric positive
    definite, [n > p-1], and the log-density is finite. *)
Lemma Wishart_logp_formula_witness :
  spd (1%:M : 'M[rat]_2) /\
  0 < \det (1%:M : 'M[rat]_2) /\
  exists r, Wishart_logp qlog qmultigammaln qsolve_singular 3%:R 2
              1%:M (1%:M : 'M[rat]_2) = Fin r.
Proof.
have spdI : spd (1%:M : 'M[rat]_2) by exact: spd_1.
have [detI ->] :=
  Wishart_logp_formula qlog qmultigammaln qsolve_singular 3%:R
    (1%:M : 'M[rat]_2) spdI.
by do 2![split=> //]; eexists.
Defined.

(** [Dirichlet(k=2, a=1)] with the scalar replicated, at [x = [1/2, 1/2]];
    and [Dirichlet(k=1, a=1)], whose guard fails. *)
Lemma Dirichlet_logp_contract_witness :
  (exists r, Dirichlet_logp qlog qgammaln (Scalar 1 : param rat 2)
               (const_mx 2%:R^-1) = Fin r) /\
  Dirichlet_logp qlog qgammaln (Scalar 1 : param rat 1) (const_mx 1) = NegInf.
Proof.
split.
  have [aE [hin _]] := Dirichlet_logp_contract qlog qgammaln
                         (Scalar 1 : param rat 2) (const_mx 2%:R^-1).
  have apos (i : 'I_2) : 0 < Dirichlet_a (Scalar 1 : param rat 2) i 0.
    by rewrite aE ltr01.
  by rewrite (hin isT apos); eexists.
have [_ [_ hout]] := Dirichlet_logp_contract qlog qgammaln
                       (Scalar 1 : param rat 1) (const_mx 1).
by apply: hout; left.
Defined.

(** [Multinomial(n=10, p=[1/2,1/2])] at [x = [5,5]]; and at [x = [11,11]],
    where the guard fails. *)
Lemma Multinomial_logp_contract_witness :
  (exists r, Multinomial_logp qlog qfactln 10%:R
               (const_mx 2%:R^-1 : 'cV[rat]_2) (const_mx 5%:R) = Fin r) /\
  Multinomial_logp qlog qfactln 10%:R
    (const_mx 2%:R^-1 : 'cV[rat]_2) (const_mx 11%:R) = NegInf.
Proof.
split.
  have [hin _] := Multinomial_logp_contract qlog qfactln 10%:R
                    (const_mx 2%:R^-1 : 'cV[rat]_2) (const_mx 5%:R).
  have xb (i : 'I_2) : 0 <= (const_mx 5%:R : 'cV[rat]_2) i 0 <= 10%:R.
    by rewrite mxE.
  by rewrite (hin isT xb); eexists.
have [_ hout] := Multinomial_logp_contract qlog qfactln 10%:R
                   (const_mx 2%:R^-1 : 'cV[rat]_2) (const_mx 11%:R).
by apply: hout; right; right; exists ord0; rewrite mxE.
Defined.

(** [MvNormal(mu=0, tau=I)] in dimension 2 at [x = 0]. *)
Lemma MvNormal_logp_formula_witness :
  let T : 'M[rat]_2 := 1%:M in
  let x : 'cV[rat]_2 := const_mx 1 in
  let mu : 'cV[rat]_2 := 0 in
  spd T /\ 0 < \det T /\
  MvNormal_logp qlog qpi mu T x =
  1 / 2%:R * (- 2%:R * qlog (2%:R * qpi) + qlog (\det T)
              - ((x - mu)^T *m T *m (x - mu)) 0 0).
Proof.
move=> T x mu; have spdT : spd T by exact: spd_1.
by split=> //; apply: MvNormal_logp_formula.
Defined.


(** The swap of the two coordinates, with scale [[2, 1], [1, 1]] and
    value [diag(1, 3)]: the swap moves both, the permuted scale is
    [[1, 1], [1, 2]] and the permuted value [diag(3, 1)]. *)
Lemma Wishart_logp_perm_invariant_witness :
  let P : 'M[rat]_2 := perm_mx (tperm 0 1) in
  let V : 'M[rat]_2 := \matrix_(i, j) (if (i == 0) && (j == 0) then 2%:R else 1) in
  let X : 'M[rat]_2 := \matrix_(i, j) (if i == j then (i.*2.+1)%:R else 0) in
  [/\ is_perm_mx P, spd V & spd X] /\
  [/\ (P *m V *m P^T) 0 0 != V 0 0, (P *m X *m P^T) 0 0 != X 0 0 &
      Wishart_logp qlog qmultigammaln qsolve_singular 3%:R 2
        (P *m V *m P^T) (P *m X *m P^T) =
      Wishart_logp qlog qmultigammaln qsolve_singular 3%:R 2 V X].
Proof.
move=> P V X; have pP : is_perm_mx P by exists (tperm 0 1).
have spdV : spd V.
  by apply: spd_2x2; rewrite ?mxE //; apply/matrixP => i j; rewrite !mxE andbC.
have spdX : spd X.
  apply: spd_2x2; rewrite ?mxE //; apply/matrixP => i j; rewrite !mxE eq_sym.
  by case: eqP => // ->.
have moved (A : 'M[rat]_2) : (P *m A *m P^T) 0 0 = A 1 1.
  by rewrite /P tr_perm_mx -row_permE -col_permE !mxE tpermL.
split; split=> //; try by rewrite moved !mxE.
by case: (Wishart_logp_perm_invariant qlog qmultigammaln qsolve_singular
            3%:R pP spdV spdX).
Defined.

(** [Dirichlet(k=2, a=[1,1])] at [x = [1/2, 1/2]]. *)
Lemma Dirichlet_uniform_logp_witness :
  Dirichlet_logp qlog qgammaln (Tensor (const_mx 1) : param rat 2)
    (const_mx 2%:R^-1) = Fin 0.
Proof.
apply: Dirichlet_uniform_logp.
- by rewrite /qgammaln subrr mul0r.
- by rewrite /qgammaln subrr mulr0.
- by move=> i; rewrite mxE.
- by rewrite !big_ord_recl big_ord0 !mxE addr0 -mulr2n -mulr_natr mulVf.
Defined.

(** [Multinomial(n=10, p=[1/2,1/2])]: the mean sums to 10. *)
Lemma Multinomial_mean_sum_witness :
  vsum (Multinomial_mean 10%:R (const_mx 2%:R^-1 : 'cV[rat]_2)) = 10%:R.
Proof.
have p1 : vsum (const_mx 2%:R^-1 : 'cV[rat]_2) = 1.
  by rewrite /vsum !big_ord_recl big_ord0 !mxE addr0 -mulr2n -mulr_natr mulVf.
by case: (Multinomial_mean_sum 10%:R p1).
Defined.

(** C9 as stated fails on the empty concentration vector,
    [Dirichlet(k=0, a=1)]: every entry of [a] is positive, there being
    none, and the entries of the mean and of the mode sum to 0. *)
Lemma Dirichlet_mean_empty_counterexample :
  let a0 : param rat 0 := Scalar 1 in
  [/\ forall i, 1 < Dirichlet_a a0 i 0,
      forall i, 0 < Dirichlet_a a0 i 0,
      vsum (Dirichlet_mean a0) <> 1 &
      exists m, Dirichlet_mode a0 = Val m /\ vsum m <> 1].
Proof.
move=> a0; have neq01 : (0 : rat) <> 1 by [].
split; try by case.
  by rewrite vsum_empty.
exists (vdivs (vsubs (Dirichlet_a a0) 1) (vsum (vsubs (Dirichlet_a a0) 1))).
split; last by rewrite [vsum (vdivs _ _)]vsum_empty.
rewrite /Dirichlet_mode.
by have -> : vall (vgts (Dirichlet_a a0) 1) = true by apply/vallP; case.
Defined.

(** [Dirichlet(k=2, a=2)]: mean and mode lie on the simplex. *)
Lemma Dirichlet_mean_mode_simplex_witness :
  let a0 : param rat 2 := Scalar 2%:R in
  vsum (Dirichlet_mean a0) = 1 /\
  exists m, Dirichlet_mode a0 = Val m /\ vsum m = 1.
Proof.
move=> a0.
have apos (i : 'I_2) : 0 < Dirichlet_a a0 i 0 by rewrite Dirichlet_aE.
have a1 (i : 'I_2) : 1 < Dirichlet_a a0 i 0 by rewrite Dirichlet_aE.
have [_ _ -> /(_ a1)[m [-> _ m1]]] :=
  @Dirichlet_mean_mode_simplex rat 2 a0 isT apos.
by split=> //; exists m.
Defined.

(** [Multinomial(n=2, p=[1/2])] at [x = [1]]: [sum(x) <> n] and
    [sum(p) <> 1], and the log-density is finite. *)
Lemma Multinomial_logp_ignores_sums_witness :
  let p : 'cV[rat]_1 := const_mx 2%:R^-1 in
  let x : 'cV[rat]_1 := const_mx 1 in
  [/\ vsum x != 2%:R, vsum p != 1 &
      exists r, Multinomial_logp qlog qfactln 2%:R p x = Fin r].
Proof.
move=> p x; have [hall _] := Multinomial_logp_ignores_sums qlog qfactln.
have xb (i : 'I_1) : 0 <= x i 0 <= 2%:R by rewrite mxE.
have ppos (i : 'I_1) : 0 < p i 0 by rewrite mxE.
split; try by rewrite /vsum big_ord1 mxE.
by rewrite (hall 1%N 2%:R p x isT xb ppos); eexists.
Defined.

(** * Further properties of the distributions *)

(** ** MvNormal *)

Section MvNormalFacts.

Variable R : realFieldType.
Variables (log : R -> R) (pi : R).

(** The quadratic form of the log-density vanishes at the mean. *)
Lemma MvNormal_logp_at_mu (k : nat) (mu : 'cV[R]_k) (T : 'M[R]_k) :
  MvNormal_logp log pi mu T mu =
  1 / 2%:R * (- k%:R * log (2%:R * pi) + log (\det T)).
Proof.
rewrite /MvNormal_logp subrr /dot_vv big1 ?subr0 // => i _.
by rewrite mxE mul0r.
Qed.

Lemma MvNormal_logp_gap (k : nat) (mu : 'cV[R]_k) (T : 'M[R]_k)
  (x : 'cV[R]_k) :
  MvNormal_logp log pi mu T mu - MvNormal_logp log pi mu T x =
  ((x - mu)^T *m T *m (x - mu)) 0 0 / 2%:R.
Proof.
rewrite MvNormal_logp_at_mu /MvNormal_logp quad_formE /det.
by rewrite -mulrBr opprB addrC subrK mulrC mul1r.
Qed.

(** X1: the mode [mu] of MvNormal maximises its log-density when the
    precision is positive definite: [logp(x) <= logp(mode)], with
    equality exactly at [x = mu]. *)
Theorem MvNormal_mode_maximises (k : nat) (mu : 'cV[R]_k) (T : 'M[R]_k)
  (x : 'cV[R]_k) :
  posdef T ->
  MvNormal_logp log pi mu T x <= MvNormal_logp log pi mu T (MvNormal_mode mu T)
  /\ (MvNormal_logp log pi mu T x == MvNormal_logp log pi mu T (MvNormal_mode mu T))
     = (x == mu).
Proof.
move=> pdT; rewrite /MvNormal_mode -subr_ge0 eq_sym -subr_eq0.
rewrite MvNormal_logp_gap; have [->|xmu] := eqVneq x mu.
  by rewrite subrr mulmx0 mxE mul0r lexx eqxx.
have /pdT q0 : x - mu != 0 by rewrite subr_eq0.
have h : 0 < ((x - mu)^T *m T *m (x - mu)) 0 0 / 2%:R.
  by rewrite divr_gt0 // ltr0n.
by rewrite (ltW h) (gt_eqF h).
Qed.

(** The log-density under an orthogonal change of coordinates. *)
Lemma MvNormal_logp_conj (k : nat) (P : 'M[R]_k) (mu : 'cV[R]_k)
  (T : 'M[R]_k) (x : 'cV[R]_k) :
  P *m P^T = 1%:M ->
  MvNormal_logp log pi (P *m mu) (P *m T *m P^T) (P *m x) =
  MvNormal_logp log pi mu T x.
Proof.
move=> PPt; rewrite /MvNormal_logp !quad_formE /det conj_det //.
rewrite -mulmxBr trmx_mul !mulmxA -(mulmxA _ P^T P) (orth_tr_mul PPt) mulmx1.
by rewrite -(mulmxA _ P^T P) (orth_tr_mul PPt) mulmx1.
Qed.

(** X2: MvNormal [logp] is unchanged when the coordinates of the mean
    and of the value and the matching rows and columns of the precision
    are permuted together. *)
Theorem MvNormal_logp_perm_invariant (k : nat) (P : 'M[R]_k)
  (mu : 'cV[R]_k) (T : 'M[R]_k) (x : 'cV[R]_k) :
  is_perm_mx P ->
  MvNormal_logp log pi (P *m mu) (P *m T *m P^T) (P *m x) =
  MvNormal_logp log pi mu T x.
Proof. by case=> s ->; apply: MvNormal_logp_conj; apply: perm_mx_orth. Qed.

(** X3: with the identity as precision the coordinates are independent:
    MvNormal [logp(x)] is
    [1/2 * (-k*log(2 pi) + log 1 - sum_i (x_i - mu_i)^2)]. *)
Theorem MvNormal_logp_identity (k : nat) (mu x : 'cV[R]_k) :
  MvNormal_logp log pi mu 1%:M x =
  1 / 2%:R * (- k%:R * log (2%:R * pi) + log 1
              - \sum_i (x i 0 - mu i 0) ^+ 2).
Proof.
rewrite /MvNormal_logp /det det1 /dot_mv mul1mx /dot_vv.
by congr (_ * (_ - _)); apply: eq_bigr => i _; rewrite !mxE expr2.
Qed.

(** X4: the MvNormal log-density is symmetric about the mean, which
    is also the median: [logp(mu + h) = logp(mu - h)] for every
    displacement [h]. *)
Theorem MvNormal_logp_symmetric (k : nat) (mu : 'cV[R]_k) (T : 'M[R]_k)
  (h : 'cV[R]_k) :
  MvNormal_logp log pi mu T (MvNormal_median mu T + h) =
  MvNormal_logp log pi mu T (MvNormal_median mu T - h).
Proof.
rewrite /MvNormal_median /MvNormal_logp !quad_formE.
rewrite [mu + h]addrC addrK [mu - h]addrC addrK.
by rewrite mulmxN [(- h)^T]linearN /= !mulNmx opprK.
Qed.

End MvNormalFacts.

(** ** Dirichlet *)

Section DirichletFacts.

Variable R : realFieldType.
Variables (log gammaln : R -> R).

Lemma Dirichlet_a_pperm (k : nat) (s : 'S_k) (a0 : param R k) :
  Dirichlet_a (pperm s a0) = vperm s (Dirichlet_a a0).
Proof.
apply/matrixP => i j; rewrite ord1 Dirichlet_aE /vperm mxE Dirichlet_aE.
by case: a0 => [c|v] //=; rewrite /vperm mxE.
Qed.

Lemma vsum_vperm (k : nat) (s : 'S_k) (v : 'cV[R]_k) :
  vsum (vperm s v) = vsum v.
Proof.
rewrite /vsum [RHS](reindex_inj (@perm_inj _ s)) /=.
by apply: eq_bigr => i _; rewrite /vperm mxE.
Qed.

Lemma vall_vgts_vperm (k : nat) (s : 'S_k) (v : 'cV[R]_k) (c : R) :
  vall (vgts (vperm s v) c) = vall (vgts v c).
Proof.
apply/vall_vgts/vall_vgts => h i.
  by move: (h ((s^-1)%g i)); rewrite /vperm mxE permKV.
by rewrite /vperm mxE.
Qed.

(** X5: Dirichlet [logp] is unchanged when the entries of the
    concentration and of the value are permuted together. *)
Theorem Dirichlet_logp_perm_invariant (k : nat) (s : 'S_k)
  (a0 : param R k) (x : 'cV[R]_k) :
  Dirichlet_logp log gammaln (pperm s a0) (vperm s x) =
  Dirichlet_logp log gammaln a0 x.
Proof.
rewrite /Dirichlet_logp Dirichlet_a_pperm vall_vgts_vperm vsum_vperm.
rewrite !Dirichlet_raw; congr (bound (_ + _) _).
rewrite [RHS](reindex_inj (@perm_inj _ s)) /=.
by apply: eq_bigr => i _; rewrite /vperm !mxE.
Qed.

(** X6: a scalar concentration [c <> 0] gives the uniform mean: every
    entry of the mean of [Dirichlet(k, c)] is [1/k]. *)
Theorem Dirichlet_scalar_mean_uniform (k : nat) (c : R) (i : 'I_k) :
  c != 0 -> Dirichlet_mean (Scalar c : param R k) i 0 = 1 / k%:R.
Proof.
move=> c0; rewrite /Dirichlet_mean [LHS]mxE Dirichlet_aE.
have -> : vsum (Dirichlet_a (Scalar c : param R k)) = k%:R * c.
  rewrite /vsum (eq_bigr (fun=> c)) ?sumr_const ?card_ord ?mulr_natl //.
  by move=> j _; rewrite Dirichlet_aE.
have k0 : k%:R != 0 :> R by rewrite pnatr_eq0 -lt0n (leq_ltn_trans _ (ltn_ord i)).
by rewrite invfM mulrCA mulfV ?mulr1 ?mul1r.
Qed.


(** X8: the Dirichlet mode is [nan] exactly when some [a_i <= 1]; when
    it is defined on a non-empty concentration, all its entries are
    positive. *)
Theorem Dirichlet_mode_defined (k : nat) (a0 : param R k) :
  let a := Dirichlet_a a0 in
  ((exists i, a i 0 <= 1) <-> Dirichlet_mode a0 = NaN) /\
  (forall m, Dirichlet_mode a0 = Val m -> forall i, 0 < m i 0).
Proof.
move=> a; rewrite /Dirichlet_mode -/a; split.
  split=> [[i ai]|].
    suff /negbTE-> : ~~ vall (vgts a 1) by [].
    by apply/vallPn; exists i; rewrite mxE -leNgt.
  case: ifPn => // /vallPn[i]; rewrite mxE -leNgt => ai _.
  by exists i.
move=> m; case: ifP => // /vall_vgts a1 [<-] i.
have k0 : (0 < k)%N by apply: leq_ltn_trans (ltn_ord i).
rewrite !mxE divr_gt0 ?subr_gt0 //.
by apply: vsum_gt0 => // j; rewrite mxE subr_gt0.
Qed.

(** X9: whenever the guard of Dirichlet [logp] holds ([k > 1] and every
    [a_i > 0]), the mean lies strictly inside the simplex: its entries
    are in (0, 1) and sum to 1. *)
Theorem Dirichlet_mean_interior (k : nat) (a0 : param R k) (x : 'cV[R]_k) :
  is_finite (Dirichlet_logp log gammaln a0 x) ->
  (forall i, 0 < Dirichlet_mean a0 i 0 < 1) /\ vsum (Dirichlet_mean a0) = 1.
Proof.
rewrite /Dirichlet_logp /bound /alltrue /= andbT.
case: ifP => // /andP[k1 /vall_vgts apos] _.
have k0 : (0 < k)%N by apply: ltnW.
have s0 : 0 < vsum (Dirichlet_a a0) by apply: vsum_gt0.
split; last by rewrite /Dirichlet_mean vsum_vdivs divff // gt_eqF.
move=> i; rewrite /Dirichlet_mean mxE divr_gt0 //= ltr_pdivrMr // mul1r.
case: k k1 {k0} a0 x apos s0 i => [|[|k]] // _ a0 x apos _ i.
pose j : 'I_k.+2 := if i == ord0 then lift ord0 ord0 else ord0.
have ij : j != i by rewrite /j; case: ifP => [/eqP->|/negbT]; rewrite // eq_sym.
rewrite /vsum (bigD1 i) //= (bigD1 j) //= -[X in X < _]addr0 ltrD2l.
by apply: ltr_pwDl => //; apply: sumr_ge0 => l _; apply: ltW.
Qed.

End DirichletFacts.

(** ** Multinomial *)

Section MultinomialFacts.

Variable R : realFieldType.
Variables (log factln : R -> R).

Lemma vall_map_vperm (k : nat) (s : 'S_k) (f : R -> bool) (v : 'cV[R]_k) :
  vall (map_mx f (vperm s v)) = vall (map_mx f v).
Proof.
apply/vallP/vallP => h i; last by move: (h (s i)); rewrite /vperm !mxE.
by move: (h ((s^-1)%g i)); rewrite /vperm !mxE permKV.
Qed.

(** X10: Multinomial [logp] is unchanged when the outcomes are
    relabelled: the entries of [p] and of [x] permuted together. *)
Theorem Multinomial_logp_perm_invariant (k : nat) (s : 'S_k) (n : R)
  (p x : 'cV[R]_k) :
  Multinomial_logp log factln n (vperm s p) (vperm s x) =
  Multinomial_logp log factln n p x.
Proof.
rewrite /Multinomial_logp /sles /vles !vall_map_vperm !Multinomial_raw.
congr (bound (_ + _) _); rewrite [RHS](reindex_inj (@perm_inj _ s)) /=.
by apply: eq_bigr => i _; rewrite /vperm !mxE.
Qed.


(** X12: with no outcomes at all ([k = 0]) the sum is empty and the
    guards on [x] hold: Multinomial [logp] is [factln(n)] for [n > 0]
    and negative infinity otherwise. *)
Theorem Multinomial_logp_empty (n : R) (p x : 'cV[R]_0) :
  Multinomial_logp log factln n p x =
  if 0 < n then Fin (factln n) else NegInf.
Proof.
rewrite /Multinomial_logp /bound /alltrue /= andbT Multinomial_raw big_ord0.
have -> : vall (sles 0 x) by apply/vallP; case.
have -> : vall (vles x n) by apply/vallP; case.
by rewrite addr0 !andbT.
Qed.

End MultinomialFacts.

(** ** Wishart *)

Section WishartFacts.

Variable R : realFieldType.
Variables (log : R -> R) (multigammaln : nat -> R -> R).
Variable solve_singular : forall d : nat, 'M[R]_d -> 'M[R]_d -> 'M[R]_d.

Lemma spd_scale (d : nat) (c : R) (A : 'M[R]_d) :
  0 < c -> spd A -> spd (c *: A).
Proof.
move=> c0 [sA pdA]; split; first by rewrite /symmetric linearZ /= sA.
by move=> x /pdA q; rewrite -scalemxAr -scalemxAl mxE mulr_gt0.
Qed.

(** X13: at the value [X = V], for an invertible scale of any size [d],
    [solve(V, V)] is the identity and the trace term of Wishart [logp]
    is [d], the number of rows of [V], whatever the parameter [p]
    is. *)
Theorem Wishart_logp_at_scale (d : nat) (n : R) (p : nat) (V : 'M[R]_d) :
  V \in unitmx ->
  Wishart_logp log multigammaln solve_singular n p V V =
  if p%:R - 1 < n
  then Fin (((n - p%:R - 1) * log (\det V) - d%:R
             - n * p%:R * log 2%:R - n * log (\det V)
             - 2%:R * multigammaln p (n / 2%:R)) / 2%:R)
  else NegInf.
Proof. by move=> uV; rewrite Wishart_logp_unit // mulVmx // mxtrace1. Qed.

(** X14: on an invertible scale Wishart [logp] depends on the value
    only through [trace(solve(V, X))], and linearly: when [logp(X)] is
    finite, [logp(Y)] is [logp(X) + trace(V^-1 (X - Y)) / 2]. *)
Theorem Wishart_logp_affine (d : nat) (n : R) (p : nat) (V X Y : 'M[R]_d)
  (r : R) :
  V \in unitmx ->
  Wishart_logp log multigammaln solve_singular n p V X = Fin r ->
  Wishart_logp log multigammaln solve_singular n p V Y =
  Fin (r + \tr (invmx V *m (X - Y)) / 2%:R).
Proof.
move=> uV; rewrite !Wishart_logp_unit //; case: ifP => // _ [<-].
by congr (Fin _); rewrite mulmxBr linearB /=; field.
Qed.

(** X15: the Wishart mean [n * V] is symmetric positive definite when
    [V] is and [n > 0]. *)
Theorem Wishart_mean_spd (d : nat) (n : R) (p : nat) (V : 'M[R]_d) :
  0 < n -> spd V -> spd (Wishart_mean n p V).
Proof. exact: spd_scale. Qed.

(** X16: the Wishart mode is [nan] exactly when [n < p+1]; at
    [n = p+1] it is the zero matrix; for [n > p+1] and a symmetric
    positive-definite [V] it is symmetric positive definite and equals
    the mean less [(p+1) * V]. *)
Theorem Wishart_mode_cases (d : nat) (n : R) (p : nat) (V : 'M[R]_d) :
  [/\ n < p%:R + 1 <-> Wishart_mode n p V = NaN,
      n = p%:R + 1 -> Wishart_mode n p V = Val 0 &
      p%:R + 1 < n -> spd V ->
      exists M, [/\ Wishart_mode n p V = Val M, spd M &
                    M = Wishart_mean n p V - (p%:R + 1) *: V]].
Proof.
rewrite /Wishart_mode; split.
- by rewrite ltNge; case: ifP => _; split.
- by move=> ->; rewrite lexx [_ + 1 - _]addrAC subrr add0r subrr scale0r.
move=> pn spdV; exists ((n - p%:R - 1) *: V); rewrite (ltW pn); split=> //.
  by apply: spd_scale => //; rewrite -addrA -opprD subr_gt0.
by rewrite /Wishart_mean -scalerBl opprD addrA.
Qed.


End WishartFacts.

(** * The further properties on concrete inputs *)

(** [MvNormal(mu=0, tau=I)] in dimension 2, at [x = [1, 1]]. *)
Lemma MvNormal_mode_maximises_witness :
  let T : 'M[rat]_2 := 1%:M in
  let mu : 'cV[rat]_2 := 0 in
  let x : 'cV[rat]_2 := const_mx 1 in
  posdef T /\
  MvNormal_logp qlog qpi mu T x <= MvNormal_logp qlog qpi mu T (MvNormal_mode mu T).
Proof.
move=> T mu x; have pdT : posdef T by case: (spd_1 rat 2).
split; first exact: pdT.
have [h _] := MvNormal_mode_maximises qlog qpi mu x pdT.
exact: h.
Defined.

(** The swap of the two coordinates, with mean [[0, 1]], precision
    [[2, 1], [1, 1]] and value [[1, 2]]: the swap moves all three. *)
Lemma MvNormal_logp_perm_invariant_witness :
  let P : 'M[rat]_2 := perm_mx (tperm 0 1) in
  let T : 'M[rat]_2 := \matrix_(i, j) (if (i == 0) && (j == 0) then 2%:R else 1) in
  let mu : 'cV[rat]_2 := \col_i i%:R in
  let x : 'cV[rat]_2 := \col_i i.+1%:R in
  [/\ is_perm_mx P, (P *m mu) 0 0 != mu 0 0,
      (P *m T *m P^T) 0 0 != T 0 0 &
      MvNormal_logp qlog qpi (P *m mu) (P *m T *m P^T) (P *m x) =
      MvNormal_logp qlog qpi mu T x].
Proof.
move=> P T mu x; have pP : is_perm_mx P by exists (tperm 0 1).
split; first exact: pP.
- by rewrite /P -row_permE !mxE tpermL.
- by rewrite /P tr_perm_mx -row_permE -col_permE !mxE tpermL.
- exact: (MvNormal_logp_perm_invariant qlog qpi mu T x pP).
Defined.

(** [Dirichlet(k=3, a=2)]: every entry of the mean is [1/3]. *)
Lemma Dirichlet_scalar_mean_uniform_witness :
  Dirichlet_mean (Scalar 2%:R : param rat 3) ord0 0 = 1 / 3%:R.
Proof. exact: (@Dirichlet_scalar_mean_uniform rat 3 2%:R ord0 isT). Defined.


(** [Dirichlet(k=2, a=1)] has no mode; that of [Dirichlet(k=2, a=2)]
    has positive entries. *)
Lemma Dirichlet_mode_defined_witness :
  Dirichlet_mode (Scalar 1 : param rat 2) = NaN /\
  exists m, Dirichlet_mode (Scalar 2%:R : param rat 2) = Val m /\
            forall i, 0 < m i 0.
Proof.
split.
  have [[h _] _] := Dirichlet_mode_defined (Scalar 1 : param rat 2).
  by apply: h; exists ord0; rewrite Dirichlet_aE.
have [_ h] := Dirichlet_mode_defined (Scalar 2%:R : param rat 2).
have a1 : vall (vgts (Dirichlet_a (Scalar 2%:R : param rat 2)) 1).
  by apply/vall_vgts => i; rewrite Dirichlet_aE.
by eexists; split; [rewrite /Dirichlet_mode a1 | apply: h; rewrite /Dirichlet_mode a1].
Defined.

(** [Dirichlet(k=2, a=1)] at [x = [1/2, 1/2]]: the guard holds and the
    mean is inside the simplex. *)
Lemma Dirichlet_mean_interior_witness :
  let a0 : param rat 2 := Scalar 1 in
  let x : 'cV[rat]_2 := const_mx 2%:R^-1 in
  is_finite (Dirichlet_logp qlog qgammaln a0 x) /\
  vsum (Dirichlet_mean a0) = 1.
Proof.
move=> a0 x.
have apos (i : 'I_2) : 0 < Dirichlet_a a0 i 0 by rewrite Dirichlet_aE.
have fin : is_finite (Dirichlet_logp qlog qgammaln a0 x).
  by rewrite (Dirichlet_logp_inside qlog qgammaln x isT apos).
by split=> //; case: (Dirichlet_mean_interior fin).
Defined.


(** [Wishart(n=3, p=2, V=I)] at [X = V]. *)
Lemma Wishart_logp_at_scale_witness :
  let V : 'M[rat]_2 := 1%:M in
  V \in unitmx /\
  exists r, Wishart_logp qlog qmultigammaln qsolve_singular 3%:R 2 V V = Fin r.
Proof.
move=> V; have uV : V \in unitmx by exact: unitmx1.
split; first exact: uV.
rewrite (Wishart_logp_at_scale qlog qmultigammaln qsolve_singular 3%:R 2 uV).
have -> : (2%:R - 1 < 3%:R :> rat) by [].
by eexists.
Defined.

(** [Wishart(n=3, p=2, V=I)] at [X = I] and at [Y = 2 I]. *)
Lemma Wishart_logp_affine_witness :
  let V : 'M[rat]_2 := 1%:M in
  let Y : 'M[rat]_2 := 2%:R%:M in
  exists r,
    [/\ V \in unitmx,
        Wishart_logp qlog qmultigammaln qsolve_singular 3%:R 2 V V = Fin r &
        Wishart_logp qlog qmultigammaln qsolve_singular 3%:R 2 V Y =
        Fin (r + \tr (invmx V *m (V - Y)) / 2%:R)].
Proof.
move=> V Y; have uV : V \in unitmx by exact: unitmx1.
have hX := Wishart_logp_unit qlog qmultigammaln qsolve_singular 3%:R 2 V uV.
have g : (2%:R - 1 < 3%:R :> rat) by [].
rewrite g in hX.
eexists; split; [exact: uV | exact: hX |].
exact: (@Wishart_logp_affine rat qlog qmultigammaln qsolve_singular 2 3%:R 2
          V V Y _ uV hX).
Defined.

(** [Wishart(n=3, p=2, V=I)]: the mean [3 I] is symmetric positive
    definite. *)
Lemma Wishart_mean_spd_witness :
  spd (Wishart_mean 3%:R 2 (1%:M : 'M[rat]_2)).
Proof. by apply: Wishart_mean_spd => //; apply: spd_1. Defined.

(** [Wishart(n=4, p=2, V=I)]: the mode is [I]. *)
Lemma Wishart_mode_cases_witness :
  let V : 'M[rat]_2 := 1%:M in
  exists M, [/\ Wishart_mode 4%:R 2 V = Val M, spd M &
                M = Wishart_mean 4%:R 2 V - (2%:R + 1) *: V].
Proof.
move=> V; have [_ _ h] := Wishart_mode_cases 4%:R 2 V.
by apply: h => //; apply: spd_1.
Defined.

